(** * Preprocessing pipeline of bach_propagation: a shallow embedding

    The development follows [src/preprocessing.py] function by function:
    [normalize], [sample_midi_track], [piano_roll], [build_vocab],
    [tokens_to_ids] and the assembling part of [get_data].

    Conventions.
    - Python integers are [Z]; list positions and vocabulary ids, which
      the code only ever counts upwards from 0, are [nat].
    - The grid interval is a Python number: an [int] when the sampler is
      called directly, the float [ticks_per_beat / 2] when it is called by
      [piano_roll].  It is modelled by a rational [Q]; [//] is [Qfloor],
      [np.ceil] is [Qceiling].  The model is exact where the code's
      arithmetic is: for an [int], and for a float that is a whole or a
      half number of ticks ([half_ticks]), whose sums with integers are
      computed without rounding.  Every float [piano_roll] forms is of
      that kind (or the quotient of two of them, immediately rounded up).
      For another float interval the code's cursor is a rounded sum, which
      the rational cursor does not follow; statements about where the
      cursor stands are made for [half_ticks] intervals only.
    - Python dictionaries are [gmap]s.
    - An exception is a value of [exn]; a computation that may raise
      returns a [result].  The [while] loop of the sampler is bounded by
      a fuel argument and reports [OutOfFuel] when the bound is hit. *)

From Stdlib Require Import ZArith QArith Qround Lia Lqa.
From stdpp Require Import base list gmap strings pretty sorting.

Set Warnings "-clear-no-such-hyp".

Local Open Scope Z_scope.

(** ** Exceptions and results *)

Inductive exn : Type :=
| KeyError
| ValueError
| IndexError
| ZeroDivisionError.

Inductive result (A : Type) : Type :=
| Ok (a : A)
| Raise (e : exn)
| OutOfFuel.

Arguments Ok {A} a.
Arguments Raise {A} e.
Arguments OutOfFuel {A}.

Definition bind {A B : Type} (r : result A) (k : A -> result B) : result B :=
  match r with
  | Ok a => k a
  | Raise e => Raise e
  | OutOfFuel => OutOfFuel
  end.

Notation "x <- r ;; k" := (bind r (fun x => k))
  (at level 100, r at next level, right associativity, only parsing).

(** [[f(x) for x in xs]] where [f] may raise: left to right, the first
    exception wins. *)
Fixpoint mapM {A B : Type} (f : A -> result B) (xs : list A) : result (list B) :=
  match xs with
  | [] => Ok []
  | x :: xs' =>
      y <- f x ;;
      ys <- mapM f xs' ;;
      Ok (y :: ys)
  end.

(** ** Data model: messages, tracks, pieces *)

(** A mido message, by the attributes the code reads.  [KeySignature] and
    [OtherMeta] are the [MetaMessage]s; the rest are channel messages. *)
Inductive Msg : Type :=
| NoteOn (note velocity time : Z)
| NoteOff (note velocity time : Z)
| KeySignature (key : string) (time : Z)
| OtherMeta (time : Z)
| OtherMsg (time : Z).

Definition msg_time (m : Msg) : Z :=
  match m with
  | NoteOn _ _ t | NoteOff _ _ t | KeySignature _ t | OtherMeta t | OtherMsg t => t
  end.

Definition is_note_on (m : Msg) : bool :=
  match m with NoteOn _ _ _ => true | _ => false end.

Definition is_note_off (m : Msg) : bool :=
  match m with NoteOff _ _ _ => true | _ => false end.

Definition MidiTrack : Type := list Msg.

Record MidiFile : Type := mkMidiFile {
  tracks : list MidiTrack;
  ticks_per_beat : Z
}.

(** ** normalize *)

(** The dictionary [reference] of lines 50-55. *)
Definition reference_items : list (string * Z) :=
  [("B#", 0); ("C", 0); ("C#", -1); ("Db", -1); ("D", -2); ("D#", -3); ("Eb", -3);
   ("E", -4); ("Fb", -4); ("E#", -5); ("F", -5); ("F#", -6); ("Gb", -6); ("G", 5);
   ("G#", 4); ("Ab", 4); ("A", 3); ("A#", 2); ("Bb", 2); ("B", 1); ("Cb", 1);
   ("B#m", -3); ("Cm", -3); ("C#m", -4); ("Dbm", -4); ("Dm", -5); ("D#m", -6);
   ("Ebm", -6); ("Em", -7); ("Fbm", -7); ("E#m", 4); ("Fm", 4); ("F#m", 3);
   ("Gbm", 3); ("Gm", 2); ("G#m", 1); ("Abm", 1); ("Am", 0); ("A#m", -1);
   ("Bbm", -1); ("Bm", -2); ("Cbm", -2)]%string.

Definition reference : gmap string Z := list_to_map reference_items.

Arguments reference : simpl never.

(** mido validates a data byte whenever a message attribute is assigned:
    a note outside 0..127 raises [ValueError] and leaves the message as it
    was. *)
Definition check_data_byte (n : Z) : bool := (0 <=? n) && (n <=? 127).

(** Lines 45-48: the first inner loop, which only updates [key]. *)
Definition scan_key (key : string) (track : MidiTrack) : string :=
  fold_left (fun k m => match m with KeySignature k' _ => k' | _ => k end) track key.

(** Lines 59-62: the second inner loop.  The track is mutated in place, so
    the messages already shifted stay shifted when an assignment raises;
    the function returns the track as it is when the loop stops. *)
Fixpoint shift_notes (difference : Z) (track : MidiTrack) : MidiTrack * option exn :=
  match track with
  | [] => ([], None)
  | NoteOn n v t :: rest =>
      if check_data_byte (n + difference)
      then let '(rest', e) := shift_notes difference rest in
           (NoteOn (n + difference) v t :: rest', e)
      else (NoteOn n v t :: rest, Some ValueError)
  | m :: rest =>
      let '(rest', e) := shift_notes difference rest in (m :: rest', e)
  end.

(** Lines 40-62: the loop over the tracks, threading [key] and the
    piece's [ticks_per_beat], which is assigned at the top of every
    iteration. *)
Fixpoint normalize_loop (key : string) (tpb : Z) (trs : list MidiTrack)
  : list MidiTrack * Z * option exn :=
  match trs with
  | [] => ([], tpb, None)
  | track :: rest =>
      let tpb := 120 in
      let key := scan_key key track in
      match reference !! key with
      | None => (track :: rest, tpb, Some KeyError)
      | Some difference =>
          match shift_notes difference track with
          | (track', Some e) => (track' :: rest, tpb, Some e)
          | (track', None) =>
              let '(rest', tpb', e) := normalize_loop key tpb rest in
              (track' :: rest', tpb', e)
          end
      end
  end.

(** [normalize midi_file]: the piece object after the call, and the
    exception that ended the call if there was one ([None]: the call
    returned the piece). *)
Definition normalize (midi_file : MidiFile) : MidiFile * option exn :=
  let '(trs, tpb, e) := normalize_loop "C" (ticks_per_beat midi_file) (tracks midi_file) in
  (mkMidiFile trs tpb, e).

(** ** sample_midi_track *)

(** The loop variables of [sample_midi_track]. *)
Record sampler : Type := mkSampler {
  cur_time : Q;
  arr_index : nat;
  samples : list Z
}.

(** [msg.type=='note_off' or (msg.type=='note_on' and msg.velocity==0)] *)
Definition is_off (msg : Msg) : bool :=
  match msg with
  | NoteOff _ _ _ => true
  | NoteOn _ v _ => v =? 0
  | _ => false
  end.

Definition msg_note (msg : Msg) : Z :=
  match msg with
  | NoteOn n _ _ | NoteOff n _ _ => n
  | _ => 0
  end.

Definition Qlt_bool (x y : Q) : bool := negb (Qle_bool y x).

(** [samples[arr_index] = note]: numpy raises [IndexError] past the end
    of the buffer. *)
Definition store (st : sampler) (note : Z) : result sampler :=
  if decide (arr_index st < length (samples st))%nat
  then Ok (mkSampler (cur_time st) (arr_index st) (<[arr_index st := note]> (samples st)))
  else Raise IndexError.

(** Lines 91-98: the [while] loop run for one message. *)
Fixpoint while_loop (fuel : nat) (msg : Msg) (interval : Q) (next_msg_time : Z)
    (st : sampler) : result sampler :=
  if Qlt_bool (cur_time st) (inject_Z next_msg_time) then
    match fuel with
    | O => OutOfFuel
    | S fuel' =>
        match (if is_off msg then store st (msg_note msg) else Ok st) with
        | Ok st' =>
            while_loop fuel' msg interval next_msg_time
              (mkSampler (cur_time st' + interval)%Q (S (arr_index st')) (samples st'))
        | Raise e => Raise e
        | OutOfFuel => OutOfFuel
        end
    end
  else Ok st.

(** Lines 89-98: the loop over the messages. *)
Fixpoint sample_loop (fuel : nat) (track : MidiTrack) (interval : Q)
    (next_msg_time : Z) (st : sampler) : result sampler :=
  match track with
  | [] => Ok st
  | msg :: rest =>
      let next_msg_time := next_msg_time + msg_time msg in
      st' <- while_loop fuel msg interval next_msg_time st ;;
      sample_loop fuel rest interval next_msg_time st'
  end.

(** [interval // 4] *)
Definition quarter (interval : Q) : Q := inject_Z (Qfloor (interval / 4)).

Definition sample_midi_track (fuel : nat) (track : MidiTrack) (interval : Q)
    (num_samples : Z) : result (list Z) :=
  let cur_time := quarter interval in
  if num_samples <? 0 then Raise ValueError   (* np.zeros of a negative length *)
  else
    st <- sample_loop fuel track interval 0
            (mkSampler cur_time 0 (replicate (Z.to_nat num_samples) 0)) ;;
    Ok (samples st).

(** ** piano_roll *)

(** [sum([m.time for m in track])] *)
Definition track_duration (track : MidiTrack) : Z :=
  fold_left Z.add (msg_time <$> track) 0.

(** [max] of a list; Python raises [ValueError] on the empty one. *)
Definition py_max (xs : list Z) : result Z :=
  match xs with
  | [] => Raise ValueError
  | x :: xs' => Ok (fold_left Z.max xs' x)
  end.

(** [np.transpose] of the [k] rows of length [n] built at line 127. *)
Definition transpose (n : nat) (rows : list (list Z)) : list (list Z) :=
  (fun j => (fun row => nth j row 0) <$> rows) <$> seq 0 n.

(** ["-".join([str(note) for note in notes])] *)
Definition join_notes (notes : list Z) : string :=
  String.concat "-" (pretty <$> notes).

Section PianoRoll.

(** [np.random.seed(seed)] followed by
    [np.random.choice(tracks, 3, replace=False)]: numpy is not part of the
    repository.  The call may raise (numpy refuses an argument that is no
    1-D array, which a list of tracks need not be) or return its choice. *)
Variable random_choice : nat -> list MidiTrack -> result (list MidiTrack).

Definition piano_roll (fuel : nat) (midi_file : MidiFile) : result (list string) :=
  let tracks := drop 1 (tracks midi_file) in
  let ticks_per_eighth_note : Q := (inject_Z (ticks_per_beat midi_file) / 2)%Q in
  match tracks with
  | [] => Raise IndexError   (* tracks[0] *)
  | first :: _ =>
      let seed := length first in
      tracks <- (if decide (3 < length tracks)%nat
                 then random_choice seed tracks else Ok tracks) ;;
      longest <- py_max (track_duration <$> tracks) ;;
      let max_length : Q := (inject_Z longest + quarter ticks_per_eighth_note)%Q in
      if Qeq_bool ticks_per_eighth_note 0 then Raise ZeroDivisionError
      else
        let num_samples := Qceiling (max_length / ticks_per_eighth_note)%Q in
        voices <- mapM (fun track =>
                          sample_midi_track fuel track ticks_per_eighth_note num_samples)
                       tracks ;;
        let piano_roll := transpose (Z.to_nat num_samples) voices in
        let piano_roll := merge_sort Z.le <$> piano_roll in
        Ok (join_notes <$> piano_roll)
  end.

End PianoRoll.

(** ** build_vocab and tokens_to_ids *)

Record vocab : Type := mkVocab {
  token_to_id : gmap string nat;
  id_to_token : gmap nat string;
  highest_id : nat
}.

Definition vocab_step (v : vocab) (t : string) : vocab :=
  match token_to_id v !! t with
  | Some _ => v
  | None =>
      mkVocab (<[t := highest_id v]> (token_to_id v))
              (<[highest_id v := t]> (id_to_token v))
              (S (highest_id v))
  end.

Definition build_vocab_loop (tokens : list string) : vocab :=
  fold_left vocab_step tokens (mkVocab ∅ ∅ 0).

Definition build_vocab (tokens : list string) : gmap string nat * gmap nat string :=
  let v := build_vocab_loop tokens in (token_to_id v, id_to_token v).

Definition tokens_to_ids (tokens : list string) (token_to_id : gmap string nat) : list nat :=
  fold_left (fun ids t =>
               match token_to_id !! t with
               | Some i => ids ++ [i]
               | None => ids ++ [0%nat]
               end) tokens [].

(** ** get_data *)

(** Python's slice [l[start:stop]]: a negative bound counts from the end,
    and bounds are clipped to the sequence. *)
Definition slice_index (len : nat) (i : Z) : nat :=
  Z.to_nat (Z.min (Z.max (if i <? 0 then i + Z.of_nat len else i) 0) (Z.of_nat len)).

Definition slice {A : Type} (l : list A) (start stop : option Z) : list A :=
  let n := length l in
  let lo := from_option (slice_index n) 0%nat start in
  let hi := from_option (slice_index n) n stop in
  take (hi - lo) (drop lo l).

(** [np.concatenate] refuses an empty list of arrays. *)
Definition np_concatenate {A : Type} (arrays : list (list A)) : result (list A) :=
  match arrays with
  | [] => Raise ValueError
  | _ => Ok (concat arrays)
  end.

(** [int(train_test_split * n)] with [train_test_split = 0.8].  The double
    nearest to 0.8 lies above it by less than 5e-17, so for every length
    below 2^52 the rounded product truncates to the floor of 4n/5. *)
Definition split_index (n : nat) : Z := 4 * Z.of_nat n / 5.

Record dataset : Type := mkDataset {
  train_input_ids : list nat;
  train_label_ids : list nat;
  test_input_ids : list nat;
  test_label_ids : list nat;
  data_token_to_id : gmap string nat;
  data_id_to_token : gmap nat string;
  piece_starters : list (list nat)
}.

(** Lines 210-223, from the list [rolled] of the pieces' rolls. *)
Definition get_data_rolled (rolled : list (list string)) : result dataset :=
  all_notes <- np_concatenate rolled ;;
  let train_length := split_index (length all_notes) in
  let train_inputs := slice all_notes None (Some (train_length - 1)) in
  let '(token_to_id, id_to_token) := build_vocab train_inputs in
  let piece_starters :=
    (fun roll => tokens_to_ids (slice roll None (Some 64)) token_to_id) <$> rolled in
  let train_input_ids := tokens_to_ids train_inputs token_to_id in
  let train_label_ids :=
    tokens_to_ids (slice all_notes (Some 1) (Some train_length)) token_to_id in
  let test_input_ids :=
    tokens_to_ids (slice all_notes (Some train_length) (Some (-1))) token_to_id in
  let test_label_ids :=
    tokens_to_ids (slice all_notes (Some (train_length + 1)) None) token_to_id in
  Ok (mkDataset train_input_ids train_label_ids test_input_ids test_label_ids
                token_to_id id_to_token piece_starters).

(** Lines 201-223, from the list of normalized pieces that [get_pieces]
    read from the corpus directories. *)
Definition get_data (random_choice : nat -> list MidiTrack -> result (list MidiTrack))
    (fuel : nat) (midi_files : list MidiFile) : result dataset :=
  rolled <- mapM (piano_roll random_choice fuel) midi_files ;;
  get_data_rolled rolled.

(** * Notions used in the statements *)

(** [same_but_pitch m m']: [m'] is [m], up to the pitch when [m] is a
    note-on. *)
Definition same_but_pitch (m m' : Msg) : Prop :=
  match m, m' with
  | NoteOn _ v t, NoteOn _ v' t' => v = v' ∧ t = t'
  | _, _ => m = m'
  end.

(** The key of the claim: the last key signature met when all the tracks
    are scanned in order, "C" when there is none. *)
Definition governing_key (midi_file : MidiFile) : string :=
  fold_left scan_key (tracks midi_file) "C"%string.

(** A piece whose key signature is declared in its third track, after the
    notes of the second. *)
Definition late_key_piece : MidiFile :=
  mkMidiFile [[OtherMeta 0];
              [NoteOn 60 100 0; NoteOff 60 0 120];
              [KeySignature "D" 0; NoteOn 62 100 0; NoteOff 62 0 120]] 480.

(** The stream of the sampling scenario. *)
Definition scenario_track : MidiTrack := [NoteOn 64 100 0; NoteOff 64 0 59].



(** The interval is a whole or a half number of ticks: an [int], or the
    float [ticks_per_beat / 2]. *)
Definition half_ticks (interval : Q) : Prop :=
  ∃ h : Z, (interval == inject_Z h / 2)%Q.




(** A random choice that refuses its argument, as numpy refuses a list of
    equally long tracks; the examples below have at most three voices and
    never call it. *)
Definition refusing_choice (seed : nat) (ts : list MidiTrack) : result (list MidiTrack) :=
  Raise ValueError.



(** What holds of the loop variables of [build_vocab] after the tokens
    [seen] have been scanned. *)
Record vocab_inv (seen : list string) (v : vocab) : Prop := mkVocabInv {
  inv_inverse : ∀ t i, token_to_id v !! t = Some i ↔ id_to_token v !! i = Some t;
  inv_dom : ∀ t, is_Some (token_to_id v !! t) ↔ t ∈ seen;
  inv_range : ∀ t i, token_to_id v !! t = Some i → (i < highest_id v)%nat;
  inv_dense : ∀ i, (i < highest_id v)%nat → is_Some (id_to_token v !! i);
  inv_next : highest_id v = size (list_to_set seen : gset string);
  inv_first : ∀ pre t post, seen = pre ++ t :: post → t ∉ pre →
              token_to_id v !! t = Some (size (list_to_set pre : gset string))
}.

(** The id a single token is converted to. *)
Definition id_of (token_to_id : gmap string nat) (t : string) : nat :=
  match token_to_id !! t with
  | Some i => i
  | None => 0%nat
  end.

(** ** get_batch *)

(** [inputs[start:start+batch_size], labels[start:start+batch_size]] *)
Definition get_batch {A B : Type} (inputs : list A) (labels : list B)
    (start batch_size : Z) : list A * list B :=
  (slice inputs (Some start) (Some (start + batch_size)),
   slice labels (Some start) (Some (start + batch_size))).

(** ** Notions for the further properties *)

(** A message with its pitch raised by [difference] when it is a note-on. *)
Definition shift_note (difference : Z) (m : Msg) : Msg :=
  match m with
  | NoteOn n v t => NoteOn (n + difference) v t
  | _ => m
  end.

(** A track with the pitch of every note-on raised by [difference]. *)
Definition shift_track (difference : Z) (track : MidiTrack) : MidiTrack :=
  shift_note difference <$> track.

(** The message is no key signature. *)
Definition no_key_signature (m : Msg) : Prop :=
  match m with
  | KeySignature _ _ => False
  | _ => True
  end.

(** Every key signature of the message (if it is one) satisfies [P]. *)
Definition key_signature_in (P : string → Prop) (m : Msg) : Prop :=
  match m with
  | KeySignature key _ => P key
  | _ => True
  end.

(** Every note-on pitch of the message (if it is one) satisfies [P]. *)
Definition note_on_in (P : Z → Prop) (m : Msg) : Prop :=
  match m with
  | NoteOn n _ _ => P n
  | _ => True
  end.

(** [m'] is [m], or [m] shifted by at most 7 semitones to a valid data
    byte. *)
Definition bounded_shift (m m' : Msg) : Prop :=
  m' = m ∨
  ∃ difference, -7 ≤ difference ≤ 7 ∧ m' = shift_note difference m ∧
                note_on_in (fun n => 0 ≤ n ≤ 127) m'.

(** The key names of line 57, the values mido accepts. *)
Definition valid_keys : list string :=
  ["A"; "A#m"; "Ab"; "Abm"; "Am"; "B"; "Bb"; "Bbm"; "Bm"; "C"; "C#"; "C#m"; "Cb";
   "Cm"; "D"; "D#m"; "Db"; "Dm"; "E"; "Eb"; "Ebm"; "Em"; "F"; "F#"; "F#m"; "Fm";
   "G"; "G#m"; "Gb"; "Gm"]%string.

(** The time of the [k]th sampling point: [interval // 4 + k * interval]. *)
Definition cursor (interval : Q) (k : nat) : Q :=
  (quarter interval + inject_Z (Z.of_nat k) * interval)%Q.

(** What is heard at time [at_time] in a track that starts at [elapsed]:
    the first message that ends after [at_time] decides; its pitch when it
    is an off event, silence otherwise or when there is no such message. *)
Fixpoint sounding (track : MidiTrack) (elapsed : Z) (at_time : Q) : Z :=
  match track with
  | [] => 0
  | msg :: rest =>
      let next_msg_time := elapsed + msg_time msg in
      if Qlt_bool at_time (inject_Z next_msg_time)
      then (if is_off msg then msg_note msg else 0)
      else sounding rest next_msg_time at_time
  end.

(** The message is no note-on of velocity 0. *)
Definition no_silent_note_on (m : Msg) : Prop :=
  match m with
  | NoteOn _ v _ => v ≠ 0
  | _ => True
  end.

(** * Properties *)

(** ** Vocabulary: first-occurrence ids and round trip *)

Lemma vocab_inv_nil : vocab_inv [] (mkVocab ∅ ∅ 0).
Proof.
  split; simpl.
  - intros t i. rewrite !lookup_empty. split; discriminate.
  - intros t. rewrite lookup_empty. split; [intros [? ?]; discriminate | inversion 1].
  - intros t i. rewrite lookup_empty. discriminate.
  - lia.
  - reflexivity.
  - intros [|? ?] ? ? ?; discriminate.
Qed.

Lemma snoc_split_cases {A : Type} (l pre post : list A) (x t : A) :
  l ++ [x] = pre ++ t :: post →
  (post = [] ∧ pre = l ∧ t = x) ∨ (∃ post', post = post' ++ [x] ∧ l = pre ++ t :: post').
Proof.
  destruct post as [|p post _] using rev_ind.
  - intros H. apply app_inj_tail in H as [-> ->]. by left.
  - intros H. right. exists post.
    change (pre ++ t :: post ++ [p]) with (pre ++ (t :: post) ++ [p]) in H.
    rewrite app_assoc in H. apply app_inj_tail in H as [-> ->]. done.
Qed.

Lemma vocab_inv_step seen v x :
  vocab_inv seen v → vocab_inv (seen ++ [x]) (vocab_step v x).
Proof.
  intros [Hinv Hdom Hrng Hdense Hnext Hfirst]. unfold vocab_step.
  destruct (token_to_id v !! x) as [ix|] eqn:Hx.
  - assert (x ∈ seen) as Hin by (apply Hdom; eauto).
    split; auto.
    + intros t. rewrite Hdom. set_solver.
    + rewrite Hnext. f_equal. set_solver.
    + intros pre t post Heq Hnot.
      apply snoc_split_cases in Heq as [(-> & -> & ->) | (post' & -> & ->)]; [done|].
      by eapply Hfirst.
  - assert (x ∉ seen) as Hnin.
    { intros Hin. apply Hdom in Hin as [? ?]. congruence. }
    assert (id_to_token v !! highest_id v = None) as Hfresh.
    { destruct (id_to_token v !! highest_id v) as [t|] eqn:Ht; [|done].
      apply Hinv, Hrng in Ht. lia. }
    split; simpl.
    + intros t i. destruct (decide (t = x)) as [->|Hne].
      * rewrite lookup_insert_eq. split.
        -- intros [= <-]. by rewrite lookup_insert_eq.
        -- destruct (decide (i = highest_id v)) as [->|Hi]; [done|].
           rewrite lookup_insert_ne by done. intros Hi2. apply Hinv in Hi2. congruence.
      * rewrite lookup_insert_ne by done.
        destruct (decide (i = highest_id v)) as [->|Hi].
        -- rewrite lookup_insert_eq. split.
           ++ intros Hl. apply Hrng in Hl. lia.
           ++ intros [= ->]. done.
        -- rewrite lookup_insert_ne by done. apply Hinv.
    + intros t. destruct (decide (t = x)) as [->|Hne].
      * rewrite lookup_insert_eq. split; [set_solver | eauto].
      * rewrite lookup_insert_ne by done. rewrite Hdom. set_solver.
    + intros t i. destruct (decide (t = x)) as [->|Hne].
      * rewrite lookup_insert_eq. intros [= <-]. lia.
      * rewrite lookup_insert_ne by done. intros Hl. apply Hrng in Hl. lia.
    + intros i Hi. destruct (decide (i = highest_id v)) as [->|Hne].
      * rewrite lookup_insert_eq. eauto.
      * rewrite lookup_insert_ne by done. apply Hdense. lia.
    + rewrite Hnext, list_to_set_app_L. simpl.
      rewrite size_union by set_solver. rewrite size_union by set_solver.
      rewrite size_singleton, size_empty. lia.
    + intros pre t post Heq Hnot.
      apply snoc_split_cases in Heq as [(-> & -> & ->) | (post' & -> & ->)].
      * rewrite lookup_insert_eq. by rewrite Hnext.
      * rewrite lookup_insert_ne by set_solver. by eapply Hfirst.
Qed.

Lemma build_vocab_loop_inv tokens : vocab_inv tokens (build_vocab_loop tokens).
Proof.
  unfold build_vocab_loop.
  induction tokens as [|x tokens IH] using rev_ind.
  - apply vocab_inv_nil.
  - rewrite fold_left_app. simpl. by apply vocab_inv_step.
Qed.

(** C5. [build_vocab] numbers the tokens 0, 1, 2, ... in the order of
    their first occurrence: the id of a token is the number of distinct
    tokens in front of its first occurrence, whatever follows it (so no
    token is ever reassigned); the ids used are exactly the numbers below
    the number of distinct tokens; the two mappings are inverse to each
    other; and [id_to_token[token_to_id[t]] == t] for every token [t] of
    the input. *)
Theorem build_vocab_first_occurrence_round_trip (tokens : list string) :
  (∀ pre t post, tokens = pre ++ t :: post → t ∉ pre →
     (build_vocab tokens).1 !! t = Some (size (list_to_set pre : gset string))) ∧
  (∀ i, is_Some ((build_vocab tokens).2 !! i) ↔
        (i < size (list_to_set tokens : gset string))%nat) ∧
  (∀ t i, (build_vocab tokens).1 !! t = Some i ↔ (build_vocab tokens).2 !! i = Some t) ∧
  (∀ t, t ∈ tokens →
     ∃ i, (build_vocab tokens).1 !! t = Some i ∧ (build_vocab tokens).2 !! i = Some t).
Proof.
  destruct (build_vocab_loop_inv tokens) as [Hinv Hdom Hrng Hdense Hnext Hfirst].
  unfold build_vocab; simpl. repeat split.
  - exact Hfirst.
  - intros [t Ht]. rewrite <- Hnext. by eapply Hrng, Hinv.
  - intros Hi. rewrite <- Hnext in Hi. by apply Hdense.
  - by apply Hinv.
  - by apply Hinv.
  - intros t Ht. apply Hdom in Ht as [i Hi]. exists i. split; [done | by apply Hinv].
Qed.

(** ** Token-to-id conversion *)

Lemma tokens_to_ids_acc (v : gmap string nat) (tokens : list string) (ids : list nat) :
  fold_left (fun ids t =>
               match v !! t with
               | Some i => ids ++ [i]
               | None => ids ++ [0%nat]
               end) tokens ids
  = ids ++ (id_of v <$> tokens).
Proof.
  revert ids. induction tokens as [|t tokens IH]; intros ids; simpl.
  - by rewrite app_nil_r.
  - rewrite IH. unfold id_of at 2. destruct (v !! t); by rewrite <- app_assoc.
Qed.

Lemma tokens_to_ids_fmap (tokens : list string) (v : gmap string nat) :
  tokens_to_ids tokens v = id_of v <$> tokens.
Proof. unfold tokens_to_ids. by rewrite tokens_to_ids_acc. Qed.

Lemma length_tokens_to_ids (tokens : list string) (v : gmap string nat) :
  length (tokens_to_ids tokens v) = length tokens.
Proof. by rewrite tokens_to_ids_fmap, length_fmap. Qed.

(** C6. [tokens_to_ids] is total and yields one id per token: at every
    position, the id assigned by the vocabulary when the token is
    present, and 0 when it is absent.  In particular ["0-64";
    "unseen-token"] is converted to [0; 0] by any vocabulary that gives
    "0-64" the id 0 and does not hold "unseen-token", such as the one
    built from ["0-64"; "0-64"; "0-67"; "0-64"]. *)
Theorem tokens_to_ids_fallback (tokens : list string) (v : gmap string nat) :
  length (tokens_to_ids tokens v) = length tokens ∧
  (∀ k t i, tokens !! k = Some t → v !! t = Some i → tokens_to_ids tokens v !! k = Some i) ∧
  (∀ k t, tokens !! k = Some t → v !! t = None → tokens_to_ids tokens v !! k = Some 0%nat) ∧
  (v !! "0-64"%string = Some 0%nat → v !! "unseen-token"%string = None →
     tokens_to_ids ["0-64"; "unseen-token"]%string v = [0; 0]%nat) ∧
  tokens_to_ids ["0-64"; "unseen-token"]%string
    (build_vocab ["0-64"; "0-64"; "0-67"; "0-64"]%string).1 = [0; 0]%nat.
Proof.
  split; [|split; [|split; [|split]]].
  - apply length_tokens_to_ids.
  - intros k t i Hk Hv. rewrite tokens_to_ids_fmap, list_lookup_fmap, Hk. simpl.
    unfold id_of. by rewrite Hv.
  - intros k t Hk Hv. rewrite tokens_to_ids_fmap, list_lookup_fmap, Hk. simpl.
    unfold id_of. by rewrite Hv.
  - intros H1 H2. unfold tokens_to_ids. simpl. by rewrite H1, H2.
  - vm_compute. reflexivity.
Qed.

Lemma tokens_to_ids_fallback_witness :
  tokens_to_ids ["0-67"; "9-9"; "0-64"]%string
    (build_vocab ["0-64"; "0-64"; "0-67"; "0-64"]%string).1 !! 0%nat = Some 1%nat ∧
  tokens_to_ids ["0-67"; "9-9"; "0-64"]%string
    (build_vocab ["0-64"; "0-64"; "0-67"; "0-64"]%string).1 !! 1%nat = Some 0%nat ∧
  tokens_to_ids ["0-64"; "unseen-token"]%string
    (build_vocab ["0-64"; "0-64"; "0-67"; "0-64"]%string).1 = [0; 0]%nat.
Proof.
  pose proof (tokens_to_ids_fallback ["0-67"; "9-9"; "0-64"]%string
                (build_vocab ["0-64"; "0-64"; "0-67"; "0-64"]%string).1)
    as (_ & Hin & Hout & Hex & _).
  split; [|split].
  - apply (Hin 0%nat "0-67"%string 1%nat); vm_compute; reflexivity.
  - apply (Hout 1%nat "9-9"%string); vm_compute; reflexivity.
  - apply Hex; vm_compute; reflexivity.
Defined.

Lemma build_vocab_first_occurrence_round_trip_witness :
  (build_vocab ["0-64"; "0-64"; "0-67"; "0-64"]%string).1 !! "0-67"%string = Some 1%nat ∧
  ∃ i, (build_vocab ["0-64"; "0-64"; "0-67"; "0-64"]%string).1 !! "0-67"%string = Some i ∧
       (build_vocab ["0-64"; "0-64"; "0-67"; "0-64"]%string).2 !! i = Some "0-67"%string.
Proof.
  pose proof (build_vocab_first_occurrence_round_trip
                ["0-64"; "0-64"; "0-67"; "0-64"]%string) as (Hfirst & _ & _ & Hrt).
  split.
  - apply (Hfirst ["0-64"; "0-64"]%string "0-67"%string ["0-64"]%string).
    + reflexivity.
    + compute_done.
  - apply Hrt. compute_done.
Defined.

(** ** Slices *)

Section Slices.
Context {A : Type}.
Implicit Types l : list A.

Lemma slice_prefix l (k : Z) :
  0 ≤ k → slice l None (Some k) = take (Z.to_nat k) l.
Proof.
  intros Hk. unfold slice, slice_index; simpl.
  destruct (Z.ltb_spec k 0) as [?|_]; [lia|].
  rewrite Nat.sub_0_r.
  destruct (decide (k ≤ Z.of_nat (length l))) as [Hle|Hgt].
  - f_equal. lia.
  - rewrite (take_ge l (Z.to_nat k)) by lia. apply take_ge. lia.
Qed.

Lemma slice_between l (a b : nat) :
  (a ≤ b ≤ length l)%nat →
  slice l (Some (Z.of_nat a)) (Some (Z.of_nat b)) = drop a (take b l).
Proof.
  intros Hab. unfold slice, slice_index; simpl.
  destruct (Z.ltb_spec (Z.of_nat a) 0) as [?|_]; [lia|].
  destruct (Z.ltb_spec (Z.of_nat b) 0) as [?|_]; [lia|].
  replace (Z.to_nat (Z.min (Z.max (Z.of_nat a) 0) (Z.of_nat (length l)))) with a by lia.
  replace (Z.to_nat (Z.min (Z.max (Z.of_nat b) 0) (Z.of_nat (length l)))) with b by lia.
  rewrite take_drop_commute. do 2 f_equal. lia.
Qed.

Lemma slice_drop_last l (a : nat) :
  (a < length l)%nat →
  slice l (Some (Z.of_nat a)) (Some (-1)) = drop a (take (length l - 1) l).
Proof.
  intros Ha. unfold slice, slice_index; simpl.
  destruct (Z.ltb_spec (Z.of_nat a) 0) as [?|_]; [lia|].
  replace (Z.to_nat (Z.min (Z.max (Z.of_nat a) 0) (Z.of_nat (length l)))) with a by lia.
  replace (Z.to_nat (Z.min (Z.max (-1 + Z.of_nat (length l)) 0) (Z.of_nat (length l))))
    with (length l - 1)%nat by lia.
  rewrite take_drop_commute. do 2 f_equal. lia.
Qed.

Lemma slice_suffix l (a : nat) :
  (a ≤ length l)%nat → slice l (Some (Z.of_nat a)) None = drop a l.
Proof.
  intros Ha. unfold slice, slice_index; simpl.
  destruct (Z.ltb_spec (Z.of_nat a) 0) as [?|_]; [lia|].
  replace (Z.to_nat (Z.min (Z.max (Z.of_nat a) 0) (Z.of_nat (length l)))) with a by lia.
  apply take_ge. rewrite length_drop. lia.
Qed.
End Slices.

Lemma split_index_nat (n : nat) : split_index n = Z.of_nat (4 * n / 5).
Proof. unfold split_index. rewrite Nat2Z.inj_div, Nat2Z.inj_mul. reflexivity. Qed.

Lemma get_data_rolled_ok (rolled : list (list string)) :
  rolled ≠ [] →
  let all_notes := concat rolled in
  let train_length := split_index (length all_notes) in
  let train_inputs := slice all_notes None (Some (train_length - 1)) in
  let v := build_vocab train_inputs in
  get_data_rolled rolled =
    Ok (mkDataset
          (tokens_to_ids train_inputs v.1)
          (tokens_to_ids (slice all_notes (Some 1) (Some train_length)) v.1)
          (tokens_to_ids (slice all_notes (Some train_length) (Some (-1))) v.1)
          (tokens_to_ids (slice all_notes (Some (train_length + 1)) None) v.1)
          v.1 v.2
          ((fun roll => tokens_to_ids (slice roll None (Some 64)) v.1) <$> rolled)).
Proof.
  intros Hne. unfold get_data_rolled, np_concatenate.
  destruct rolled as [|roll rolled]; [done|]. simpl bind. cbv beta.
  unfold build_vocab. reflexivity.
Qed.

(** C3 (amended).  When the concatenated corpus has at least two tokens,
    with boundary = floor(0.8 * length), [get_data] returns the ids of
    tokens[0 : boundary-1], tokens[1 : boundary], tokens[boundary : end-1]
    and tokens[boundary+1 : end], converted with the vocabulary built from
    the first of these slices; the input lengths add up to the corpus
    length minus 2, and train inputs and train labels have one length. *)
Theorem get_data_split (rolled : list (list string)) :
  let all_tokens := concat rolled in
  let boundary := (4 * length all_tokens / 5)%nat in
  (2 ≤ length all_tokens)%nat →
  ∃ d, get_data_rolled rolled = Ok d ∧
    data_token_to_id d = (build_vocab (take (boundary - 1) all_tokens)).1 ∧
    train_input_ids d = tokens_to_ids (take (boundary - 1) all_tokens) (data_token_to_id d) ∧
    train_label_ids d = tokens_to_ids (drop 1 (take boundary all_tokens)) (data_token_to_id d) ∧
    test_input_ids d =
      tokens_to_ids (drop boundary (take (length all_tokens - 1) all_tokens))
                    (data_token_to_id d) ∧
    test_label_ids d = tokens_to_ids (drop (boundary + 1) all_tokens) (data_token_to_id d) ∧
    (length (train_input_ids d) + length (test_input_ids d) + 2 = length all_tokens)%nat ∧
    length (train_input_ids d) = length (train_label_ids d).
Proof.
  intros all_tokens boundary Hlen.
  assert (rolled ≠ []) as Hne by (intros ->; simpl in *; lia).
  assert (1 ≤ boundary ∧ boundary < length all_tokens)%nat as [Hb1 Hb2].
  { subst boundary. split.
    - apply Nat.div_le_lower_bound; lia.
    - apply Nat.Div0.div_lt_upper_bound; lia. }
  eexists. split; [by apply get_data_rolled_ok|]. simpl.
  fold all_tokens. rewrite split_index_nat. fold boundary.
  replace (Z.of_nat boundary - 1) with (Z.of_nat (boundary - 1)) by lia.
  rewrite slice_prefix by lia. rewrite Nat2Z.id.
  change 1 with (Z.of_nat 1).
  replace (Z.of_nat boundary + Z.of_nat 1) with (Z.of_nat (boundary + 1)) by lia.
  rewrite slice_between by lia.
  rewrite slice_drop_last by lia.
  rewrite slice_suffix by lia.
  repeat split.
  - rewrite !length_tokens_to_ids, length_take, length_drop, length_take. lia.
  - rewrite !length_tokens_to_ids, length_take, length_drop, length_take. lia.
Qed.

Lemma get_data_split_witness :
  ∃ d, get_data_rolled [["0-64"; "0-67"; "0-64"]; ["0-60"; "0-64"]]%string = Ok d ∧
       train_input_ids d = [0; 1; 0]%nat ∧ train_label_ids d = [1; 0; 0]%nat ∧
       test_input_ids d = [] ∧ test_label_ids d = [].
Proof.
  destruct (get_data_split [["0-64"; "0-67"; "0-64"]; ["0-60"; "0-64"]]%string)
    as (d & Hd & Hv & H1 & H2 & H3 & H4 & _).
  - simpl. lia.
  - exists d. split; [exact Hd|].
    rewrite H1, H2, H3, H4, Hv. vm_compute. auto.
Defined.

(** C3, as stated, fails on a corpus of one token: both input sequences
    are empty, and 0 + 0 + 2 is not 1. *)
Lemma get_data_split_short_corpus :
  ∃ d, get_data_rolled [["0-64"]]%string = Ok d ∧
       (length (train_input_ids d) + length (test_input_ids d) + 2
        ≠ length (concat [["0-64"]]%string))%nat.
Proof. eexists. split; [vm_compute; reflexivity|]. simpl. lia. Qed.

(** C8. [get_data] returns one starter sequence per piece, in piece
    order, whatever part of the corpus the piece falls in: the ids, under
    the vocabulary returned (the one built from the training inputs), of
    the first 64 tokens of the piece's own roll; its length is
    min(64, len(roll)). *)
Theorem piece_starters_per_piece (rolled : list (list string)) :
  rolled ≠ [] →
  ∃ d, get_data_rolled rolled = Ok d ∧
    data_token_to_id d =
      (build_vocab (slice (concat rolled) None
                      (Some (split_index (length (concat rolled)) - 1)))).1 ∧
    length (piece_starters d) = length rolled ∧
    ∀ f roll, rolled !! f = Some roll →
      ∃ starter, piece_starters d !! f = Some starter ∧
        starter = tokens_to_ids (take 64 roll) (data_token_to_id d) ∧
        length starter = (64 `min` length roll)%nat.
Proof.
  intros Hne. eexists. split; [by apply get_data_rolled_ok|]. simpl.
  split; [done|]. split; [by rewrite length_fmap|].
  intros f roll Hf. eexists. rewrite list_lookup_fmap, Hf. simpl.
  split; [done|]. rewrite slice_prefix by lia.
  split; [done|]. by rewrite length_tokens_to_ids, length_take.
Qed.

Lemma piece_starters_per_piece_witness :
  ∃ d, get_data_rolled [["0-64"; "0-67"; "0-64"]; ["0-60"; "0-64"]]%string = Ok d ∧
       ∃ starter, piece_starters d !! 1%nat = Some starter ∧ length starter = 2%nat.
Proof.
  destruct (piece_starters_per_piece [["0-64"; "0-67"; "0-64"]; ["0-60"; "0-64"]]%string)
    as (d & Hd & _ & _ & Hst).
  - discriminate.
  - exists d. split; [exact Hd|].
    destruct (Hst 1%nat ["0-60"; "0-64"]%string) as (starter & Hs & _ & Hl).
    + reflexivity.
    + exists starter. split; [exact Hs | exact Hl].
Defined.

(** ** normalize: what it changes and which key it uses *)

Lemma same_but_pitch_refl m : same_but_pitch m m.
Proof. destruct m; simpl; auto. Qed.

Lemma same_but_pitch_time m m' : same_but_pitch m m' → msg_time m' = msg_time m.
Proof. destruct m, m'; simpl; intros H; try congruence; by destruct H as [_ ->]. Qed.

Lemma same_but_pitch_other m m' : same_but_pitch m m' → is_note_on m = false → m' = m.
Proof. destruct m; simpl; intros H Hn; try discriminate; by subst. Qed.

Lemma shift_notes_frame (difference : Z) (track : MidiTrack) :
  Forall2 same_but_pitch track (shift_notes difference track).1.
Proof.
  induction track as [|m track IH]; simpl; [constructor|].
  destruct (shift_notes difference track) as [rest' e] eqn:Hrest. simpl in IH.
  destruct m; simpl; try (constructor; [reflexivity | exact IH]).
  destruct (check_data_byte (note + difference)); simpl.
  - constructor; [simpl; auto | exact IH].
  - apply Forall2_same_length_lookup_2; [done|].
    intros i x y Hx Hy. rewrite Hx in Hy. injection Hy as <-. apply same_but_pitch_refl.
Qed.

Lemma Forall2_refl_on {A : Type} (R : A → A → Prop) (l : list A) :
  (∀ x, R x x) → Forall2 R l l.
Proof. intros HR. induction l; constructor; auto. Qed.

Lemma normalize_loop_cons (key : string) (tpb : Z) (track : MidiTrack) (rest : list MidiTrack) :
  normalize_loop key tpb (track :: rest) =
    match reference !! scan_key key track with
    | None => (track :: rest, 120, Some KeyError)
    | Some difference =>
        match shift_notes difference track with
        | (track', Some e) => (track' :: rest, 120, Some e)
        | (track', None) =>
            let '(rest', tpb', e) := normalize_loop (scan_key key track) 120 rest in
            (track' :: rest', tpb', e)
        end
    end.
Proof. reflexivity. Qed.

Lemma normalize_loop_frame (key : string) (tpb : Z) (trs : list MidiTrack) :
  Forall2 (Forall2 same_but_pitch) trs (normalize_loop key tpb trs).1.1 ∧
  (trs ≠ [] → (normalize_loop key tpb trs).1.2 = 120) ∧
  (trs = [] → (normalize_loop key tpb trs).1.2 = tpb).
Proof.
  revert key tpb. induction trs as [|track rest IH]; intros key tpb.
  - cbn. split; [constructor | split; [congruence | reflexivity]].
  - assert (Forall2 (Forall2 same_but_pitch) rest rest) as Hrest.
    { apply Forall2_refl_on. intros tr. apply Forall2_refl_on, same_but_pitch_refl. }
    rewrite normalize_loop_cons.
    destruct (reference !! scan_key key track) as [difference|] eqn:Href.
    + pose proof (shift_notes_frame difference track) as Htrack.
      destruct (shift_notes difference track) as [track' [e|]]; cbn [fst snd] in *.
      * split; [constructor; assumption | split; [reflexivity | discriminate]].
      * destruct (IH (scan_key key track) 120) as (Hfr & Htpb & Htpb0).
        destruct (normalize_loop (scan_key key track) 120 rest) as [[rest' tpb'] e'].
        cbn [fst snd] in *. split; [constructor; assumption|]. split; [|discriminate].
        intros _. destruct rest; [apply Htpb0; reflexivity | apply Htpb; discriminate].
    + cbn [fst snd]. split; [|split; [reflexivity | discriminate]].
      constructor; [|assumption]. apply Forall2_refl_on, same_but_pitch_refl.
Qed.

(** C7 (amended).  Whatever the outcome of [normalize], the piece object
    afterwards has the same tracks with the same number of messages; every
    message keeps its delta-time; every message that is not a note-on, in
    particular every note-off, is unchanged; a note-on differs at most in
    its pitch; and when the piece has at least one track its
    ticks-per-beat is 120. *)
Theorem normalize_frame (midi_file : MidiFile) :
  length (tracks (normalize midi_file).1) = length (tracks midi_file) ∧
  (∀ i track, tracks midi_file !! i = Some track →
     ∃ track', tracks (normalize midi_file).1 !! i = Some track' ∧
       length track' = length track ∧
       ∀ j m, track !! j = Some m →
         ∃ m', track' !! j = Some m' ∧
           msg_time m' = msg_time m ∧
           (is_note_on m = false → m' = m) ∧
           (is_note_off m = true → m' = m) ∧
           same_but_pitch m m') ∧
  (tracks midi_file ≠ [] → ticks_per_beat (normalize midi_file).1 = 120).
Proof.
  unfold normalize.
  destruct (normalize_loop_frame "C" (ticks_per_beat midi_file) (tracks midi_file))
    as (Hfr & Htpb & _).
  destruct (normalize_loop "C" (ticks_per_beat midi_file) (tracks midi_file))
    as [[trs tpb] e]. simpl in *.
  split; [symmetry; by eapply Forall2_length|]. split; [|exact Htpb].
  intros i track Hi.
  destruct (Forall2_lookup_l _ _ _ _ _ Hfr Hi) as (track' & Hi' & Htr).
  exists track'. split; [done|]. split; [symmetry; by eapply Forall2_length|].
  intros j m Hj.
  destruct (Forall2_lookup_l _ _ _ _ _ Htr Hj) as (m' & Hj' & Hm).
  exists m'. split; [done|]. split; [by apply same_but_pitch_time|].
  split; [by apply same_but_pitch_other|]. split; [|done].
  intros Hoff. apply same_but_pitch_other; [done|]. by destruct m.
Qed.

Lemma normalize_frame_witness :
  ∃ track', tracks (normalize (mkMidiFile
                      [[KeySignature "D" 0; NoteOn 62 100 0; NoteOff 62 0 120]] 480)).1
              !! 0%nat = Some track' ∧
    track' !! 2%nat = Some (NoteOff 62 0 120) ∧
    ticks_per_beat (normalize (mkMidiFile
                      [[KeySignature "D" 0; NoteOn 62 100 0; NoteOff 62 0 120]] 480)).1 = 120.
Proof.
  destruct (normalize_frame (mkMidiFile
              [[KeySignature "D" 0; NoteOn 62 100 0; NoteOff 62 0 120]] 480))
    as (_ & Hmsgs & Htpb).
  destruct (Hmsgs 0%nat [KeySignature "D" 0; NoteOn 62 100 0; NoteOff 62 0 120])
    as (track' & Ht & _ & Hm); [reflexivity|].
  exists track'. split; [exact Ht|]. split.
  - destruct (Hm 2%nat (NoteOff 62 0 120)) as (m' & Hm' & _ & _ & Hoff & _); [reflexivity|].
    rewrite (Hoff eq_refl) in Hm'. exact Hm'.
  - apply Htpb. simpl tracks. discriminate.
Defined.

(** C7, as stated, fails on a piece without tracks: the assignment of 120
    sits inside the loop over the tracks and is never reached. *)
Lemma normalize_no_tracks_keeps_ticks :
  normalize (mkMidiFile [] 480) = (mkMidiFile [] 480, None) ∧
  ticks_per_beat (normalize (mkMidiFile [] 480)).1 ≠ 120.
Proof. split; [reflexivity | simpl; lia]. Qed.

(** What the loop does instead: when it runs to its end, track [i] is
    shifted by the offset of the last key signature among the tracks
    [0..i] only. *)
Lemma normalize_loop_keys (key : string) (tpb : Z) (trs : list MidiTrack) :
  (normalize_loop key tpb trs).2 = None →
  ∀ i track, trs !! i = Some track →
    ∃ difference,
      reference !! fold_left scan_key (take (S i) trs) key = Some difference ∧
      (normalize_loop key tpb trs).1.1 !! i = Some (shift_notes difference track).1.
Proof.
  revert key tpb. induction trs as [|tr rest IH]; intros key tpb Hok i track Hi;
    [destruct i; discriminate Hi|].
  rewrite normalize_loop_cons in Hok |- *.
  destruct (reference !! scan_key key tr) as [difference|] eqn:Href;
    [|discriminate Hok].
  destruct (shift_notes difference tr) as [tr' [e|]] eqn:Hshift; [discriminate Hok|].
  specialize (IH (scan_key key tr) 120).
  destruct (normalize_loop (scan_key key tr) 120 rest) as [[rest' tpb'] e'].
  cbn [fst snd] in *. destruct i as [|i].
  - injection Hi as <-. exists difference. split; [exact Href|].
    rewrite Hshift. reflexivity.
  - apply IH; assumption.
Qed.

(** C1 fails on the code.  The governing key of [late_key_piece] is D,
    offset -2, and [normalize] returns; but the note-on of the second
    track, scanned before the declaration, keeps its pitch 60 (offset 0 of
    the default key) while the note-on of the third goes from 62 to 60. *)
Theorem normalize_late_key_signature :
  governing_key late_key_piece = "D"%string ∧
  reference !! governing_key late_key_piece = Some (-2) ∧
  normalize late_key_piece =
    (mkMidiFile [[OtherMeta 0];
                 [NoteOn 60 100 0; NoteOff 60 0 120];
                 [KeySignature "D" 0; NoteOn 60 100 0; NoteOff 62 0 120]] 120,
     None).
Proof. split; [reflexivity | split; vm_compute; reflexivity]. Qed.

(** ** piano_roll on pieces with fewer than two tracks *)

(** C10. On a piece with no track or one track nothing is left after the
    first is dropped, and [piano_roll] raises [IndexError] at
    [tracks[0]]; so it returns a roll only for pieces with at least two
    tracks. *)
Theorem piano_roll_needs_two_tracks
    (random_choice : nat → list MidiTrack → result (list MidiTrack))
    (fuel : nat) (midi_file : MidiFile) :
  (length (tracks midi_file) ≤ 1)%nat →
  piano_roll random_choice fuel midi_file = Raise IndexError.
Proof.
  intros Hlen. unfold piano_roll.
  destruct (tracks midi_file) as [|t0 [|t1 rest]]; simpl in *; [done | done | lia].
Qed.

Lemma piano_roll_needs_two_tracks_witness :
  piano_roll refusing_choice 5
    (mkMidiFile [[KeySignature "C" 0; NoteOn 60 100 0; NoteOff 60 0 120]] 120)
  = Raise IndexError.
Proof. apply piano_roll_needs_two_tracks. simpl. lia. Defined.

(** ** The sampling scenario *)

(** C2 (amended).  With interval 40 and 3 samples the scenario yields
    [64, 64, 0]: the cursor stands at 10 and at 50 before the note-off at
    59, so the first two slots take its pitch, and the third slot is never
    reached.  Two rounds of the loop are all it takes. *)
Theorem sample_scenario (extra : nat) :
  sample_midi_track (2 + extra) scenario_track (inject_Z 40) 3 = Ok [64; 64; 0].
Proof. destruct extra; reflexivity. Qed.

(** C2, as stated, fails: no amount of fuel yields [0, 64, 64]. *)
Lemma sample_scenario_not_0_64_64 :
  ¬ ∃ fuel, sample_midi_track fuel scenario_track (inject_Z 40) 3 = Ok [0; 64; 64].
Proof.
  intros [fuel H]. destruct fuel as [|[|[|extra]]]; discriminate H.
Qed.

(** ** Rounding *)









(** ** Durations *)




(** ** The sampler stays inside its buffer *)

Section Sampler.
Variable interval : Q.
Hypothesis interval_pos : (0 < interval)%Q.

(** The buffer length, the end of the track, and a number of grid steps
    that reaches the end. *)
Variables (size : nat) (total : Z) (steps : nat).
Hypothesis room : ∀ k : nat,
  (quarter interval + inject_Z (Z.of_nat k) * interval < inject_Z total)%Q → (k < size)%nat.
Hypothesis reach :
  (inject_Z total <= quarter interval + inject_Z (Z.of_nat steps) * interval)%Q.


End Sampler.










(** ** The length of the piano roll *)







(** *** What a returned roll looks like *)






(** *** Pieces on which a roll is returned *)





